(** * TLS certificate resolution per entry point (package [tls])

    A shallow embedding of [tls/tls.go]: the flag value [FilesOrContents]
    (a comma-separated list of file paths or inline PEM blocks) and
    [SortTLSPerEntryPoints], which fans the configured certificates out to
    the entry points they are assigned to.

    Go strings are byte sequences; they are modelled by [string], whose
    characters are the 256 values of [ascii].  [len] is [String.length]. *)

From Stdlib Require Import Ascii.
From Stdlib Require String.
From stdpp Require Import base option list strings gmap.

(** ** The parts of Go's [strings] package that the source uses *)

Module strings.

(** [strings.Join(elems, sep)]. *)
Definition Join (elems : list string) (sep : string) : string :=
  String.concat sep elems.

(** [strings.HasPrefix(s, prefix)]. *)
Definition HasPrefix (s prefix : string) : bool := String.prefix prefix s.

(** [strings.TrimPrefix(s, prefix)]: [s] without the leading [prefix],
    or [s] itself when it does not start with [prefix]. *)
Definition TrimPrefix (s prefix : string) : string :=
  if HasPrefix s prefix
  then String.substring (String.length prefix)
                        (String.length s - String.length prefix) s
  else s.

(** Puts the byte [c] in front of the first piece of [pieces]. *)
Definition extend (c : ascii) (pieces : list string) : list string :=
  match pieces with
  | [] => [String c EmptyString]
  | w :: ws => String c w :: ws
  end.

(** The scan behind [strings.Split] for a separator that is not empty:
    the pieces of [s] between the leftmost occurrences of [sep], which do
    not overlap.  [skip] counts the bytes of an occurrence of [sep] that
    are still to be passed over. *)
Fixpoint genSplit (sep : string) (skip : nat) (s : string) : list string :=
  match s with
  | EmptyString => [EmptyString]
  | String c s' =>
      match skip with
      | S k => genSplit sep k s'
      | O =>
          if String.prefix sep s
          then EmptyString :: genSplit sep (String.length sep - 1) s'
          else extend c (genSplit sep 0 s')
      end
  end.

(** [strings.Split(s, sep)], for [sep] not empty (the source only splits
    on [","]). *)
Definition Split (s sep : string) : list string := genSplit sep 0 s.

End strings.

(** ** Data model *)

(** [const certificateHeader = "-----BEGIN CERTIFICATE-----\n"] *)
Definition certificateHeader : string :=
  "-----BEGIN CERTIFICATE-----" +:+ String "010"%char EmptyString.

(** [type FileOrContent string] is declared in a file of the package that is
    not among the sources; [Set] converts a [string] to it, so it is a
    string type. *)
Definition FileOrContent : Type := string.

(** Modelled from the spec: [FileOrContent.String], declared outside the
    sources; "returns the raw stored value (path string or inline PEM text)
    unchanged". *)
Definition FileOrContent_String (f : FileOrContent) : string := f.

(** [type FilesOrContents []FileOrContent] *)
Definition FilesOrContents : Type := list FileOrContent.

(** An [error] made by [fmt.Errorf]: its message. *)
Inductive error : Type :=
| Errorf (msg : string).

Global Instance error_eq_dec : EqDecision error.
Proof. solve_decision. Defined.

(** ** [FilesOrContents] as a flag value *)

(** [func (r *FilesOrContents) String() string] *)
Definition FilesOrContents_String (r : FilesOrContents) : string :=
  strings.Join (map FileOrContent_String r) ",".

(** [func (r *FilesOrContents) Set(value string) error].
    The receiver points to the list; the result is the list it points to
    after the call, and the returned error ([None] for [nil]). *)
Definition FilesOrContents_Set (r : FilesOrContents) (value : string)
  : FilesOrContents * option error :=
  let filesOrContents := strings.Split value "," in
  if decide (length filesOrContents = 0)
  then (r, Some (Errorf ("bad FilesOrContents format: " +:+ value)))
  else (foldl (λ acc fileOrContent, acc ++ [fileOrContent]) r filesOrContents,
        None).

(** [func (r *FilesOrContents) Get() interface{}] *)
Definition FilesOrContents_Get (r : FilesOrContents) : FilesOrContents := r.

(** [func (r *FilesOrContents) SetValue(val interface{})] *)
Definition FilesOrContents_SetValue (r val : FilesOrContents)
  : FilesOrContents := val.

(** [func (r *FilesOrContents) Type() string] *)
Definition FilesOrContents_Type (r : FilesOrContents) : string :=
  "filesorcontents".

(** ** Slices, records and the objects behind pointers *)

(** A Go slice: [None] is the [nil] slice, [Some l] a slice with the
    elements [l].  Capacity and the sharing of backing arrays are not
    modelled. *)
Definition slice (A : Type) : Type := option (list A).

Definition elems {A} (s : slice A) : list A := default [] s.

(** [len(s)] *)
Definition len {A} (s : slice A) : nat := length (elems s).

(** [append(s, xs...)]: appending nothing gives [s] back ([nil] stays
    [nil]); otherwise the elements of [s] followed by [xs]. *)
Definition append {A} (s : slice A) (xs : list A) : slice A :=
  match xs with
  | [] => s
  | _ :: _ => Some (elems s ++ xs)
  end.

(** [type Certificate struct { CertFile, KeyFile FileOrContent }], declared
    outside the sources; the resolver reads [CertFile]. *)
Record Certificate : Type := mkCertificate {
  CertFile : FileOrContent;
  KeyFile : FileOrContent;
}.

(** [type Configuration struct { EntryPoints []string; Certificate *Certificate }].
    The certificate is never written through its pointer, so the record
    holds its value. *)
Module Configuration.
Record t : Type := mk {
  EntryPoints : slice string;
  Certificate : Certificate;
}.
End Configuration.
Abbreviation Configuration := Configuration.t.

(** A pointer is the address of an object; an address without an object
    stands for [nil]. *)
Definition loc : Type := nat.

(** What a call ends in: [Ok] for [return nil] (or a loop that ran to its
    end), [Failed err] for [return err], [Panicked] for a nil
    dereference. *)
Inductive result : Type :=
| Ok
| Failed (err : error)
| Panicked.

(** [logrus.DebugLevel]; the levels of logrus count up from [PanicLevel = 0]. *)
Definition DebugLevel : nat := 5.

Section Resolver.

(** [tls.Certificate] of [crypto/tls], as parsed from a key pair. *)
Context {TLSCert : Type}.

(** [map[string]map[string]*tls.Certificate]: entry point, then server
    name.  The inner maps are held by value: two entry points never share
    one inner map object. *)
Abbreviation Store := (gmap string (gmap string TLSCert)).

(** The mutable state the resolver works on: the [Configuration] objects
    its pointers refer to, the outer map objects, the level of the global
    logger and the lines it has written. *)
Record World : Type := mkWorld {
  confs : gmap loc Configuration;
  maps : gmap loc Store;
  logLevel : nat;
  logs : list string;
}.

Definition setConf (p : loc) (c : Configuration) (w : World) : World :=
  mkWorld (<[p := c]> (confs w)) (maps w) (logLevel w) (logs w).

Definition setMap (m : loc) (s : Store) (w : World) : World :=
  mkWorld (confs w) (<[m := s]> (maps w)) (logLevel w) (logs w).

(** [log.Debugf(...)]: one more line. *)
Definition Debugf (line : string) (w : World) : World :=
  mkWorld (confs w) (maps w) (logLevel w) (logs w ++ [line]).

(** [FileOrContent.IsPath] and [Certificate.AppendCertificates] are
    declared outside the sources: the resolver is modelled over any such
    pair.  [AppendCertificates c store ep] gives the map object as the
    call leaves it and the error it returns. *)
Variable IsPath : FileOrContent → bool.
Variable AppendCertificates :
  Certificate → Store → string → Store * option error.

(** Lines 89-93: the name under which the certificate is logged. *)
Definition certName (conf : Configuration) : string :=
  let CertFile := CertFile (Configuration.Certificate conf) in
  let certName := FileOrContent_String CertFile in
  if negb (IsPath CertFile)
     && strings.HasPrefix (FileOrContent_String CertFile) certificateHeader
     && (String.length certificateHeader + 50
           <? String.length (FileOrContent_String CertFile))
  then String.substring 0 50
         (strings.TrimPrefix (FileOrContent_String CertFile)
                             certificateHeader)
  else certName.

(** Line 94: the formatted diagnostic. *)
Definition defaultedMessage (certName : string)
    (defaultEntryPoints : list string) : string :=
  "No entryPoint is defined to add the certificate " +:+ certName
  +:+ ", it will be added to the default entryPoints: "
  +:+ strings.Join defaultEntryPoints ", ".

(** Lines 87-97: an assignment without entry points gets the default
    ones, written into the object [conf] points to.  The test
    [conf.EntryPoints == nil || len(conf.EntryPoints) == 0] is [len = 0]:
    the [nil] slice has length 0. *)
Definition defaultEntryPointsOf (conf : loc) (c : Configuration)
    (defaultEntryPoints : list string) (w : World) : World :=
  if decide (len (Configuration.EntryPoints c) = 0) then
    let w :=
      if DebugLevel <=? logLevel w
      then Debugf (defaultedMessage (certName c) defaultEntryPoints) w
      else w in
    setConf conf
      (Configuration.mk
         (append (Configuration.EntryPoints c) defaultEntryPoints)
         (Configuration.Certificate c))
      w
  else w.

(** Lines 98-102: [for _, ep := range conf.EntryPoints]. *)
Fixpoint rangeEntryPoints (c : Certificate) (epConfiguration : loc)
    (eps : list string) (w : World) : World * result :=
  match eps with
  | [] => (w, Ok)
  | ep :: eps =>
      match maps w !! epConfiguration with
      | None => (w, Panicked)
      | Some store =>
          let '(store, err) := AppendCertificates c store ep in
          let w := setMap epConfiguration store w in
          match err with
          | Some err => (w, Failed err)
          | None => rangeEntryPoints c epConfiguration eps w
          end
      end
  end.

(** Lines 87-102: the body of the loop over [configurations]. *)
Definition forConfiguration (conf : loc) (epConfiguration : loc)
    (defaultEntryPoints : list string) (w : World) : World * result :=
  match confs w !! conf with
  | None => (w, Panicked)
  | Some c =>
      let w := defaultEntryPointsOf conf c defaultEntryPoints w in
      match confs w !! conf with
      | None => (w, Panicked)
      | Some c =>
          rangeEntryPoints (Configuration.Certificate c) epConfiguration
            (elems (Configuration.EntryPoints c)) w
      end
  end.

(** Lines 86-103: [for _, conf := range configurations]. *)
Fixpoint rangeConfigurations (configurations : list loc)
    (epConfiguration : loc) (defaultEntryPoints : list string)
    (w : World) : World * result :=
  match configurations with
  | [] => (w, Ok)
  | conf :: configurations =>
      match forConfiguration conf epConfiguration defaultEntryPoints w with
      | (w, Ok) =>
          rangeConfigurations configurations epConfiguration
            defaultEntryPoints w
      | (w, r) => (w, r)
      end
  end.

(** [make(map[string]map[string]*tls.Certificate)]: a new, empty map
    object at an address not in use. *)
Definition makeMap (w : World) : loc * World :=
  let l := fresh (dom (maps w)) in (l, setMap l ∅ w).

(** [func SortTLSPerEntryPoints(configurations []*Configuration,
      epConfiguration map[string]map[string]*tls.Certificate,
      defaultEntryPoints []string) error].
    [epConfiguration] is the caller's reference to a map object, [None]
    for a [nil] map; the parameter is the callee's own variable.  The call
    gives back the state it leaves and the returned error, nothing
    else. *)
Definition SortTLSPerEntryPoints (configurations : list loc)
    (epConfiguration : option loc) (defaultEntryPoints : list string)
    (w : World) : World * result :=
  let '(epConfiguration, w) :=
    match epConfiguration with
    | None => makeMap w
    | Some m => (m, w)
    end in
  rangeConfigurations configurations epConfiguration defaultEntryPoints w.

End Resolver.

Arguments World : clear implicits.

(** ** The certificate step *)

(** What parsing a key pair gives: the runtime certificate and the server
    names it answers for, "its primary subject name and any alternative
    names". *)
Record ParsedCertificate (TLSCert : Type) : Type := mkParsed {
  tlsCert : TLSCert;
  subjectName : string;
  alternativeNames : list string;
}.
Arguments mkParsed {_} _ _ _.
Arguments tlsCert {_} _.
Arguments subjectName {_} _.
Arguments alternativeNames {_} _.

Definition serverNames {TLSCert} (pc : ParsedCertificate TLSCert)
  : list string :=
  subjectName pc :: alternativeNames pc.

(** Modelled from the spec: [Certificate.AppendCertificates], declared
    outside the sources.  "Resolves the certificate and key FileOrContent
    values to bytes, parses them into a runtime TLS certificate object; fails
    with a parse error if the PEM is malformed or if the certificate/key pair
    is mismatched.  On success, determines the set of server names the
    certificate is valid for; for each such name, inserts (or overwrites) an
    entry in store[entryPointName][name]; if store[entryPointName] does not
    yet exist, it is created first."  Reading the files and parsing them is
    [parse], fixed during one resolution. *)
Definition AppendCertificates {TLSCert}
    (parse : Certificate → error + ParsedCertificate TLSCert)
    (c : Certificate) (store : gmap string (gmap string TLSCert))
    (entryPointName : string)
  : gmap string (gmap string TLSCert) * option error :=
  match parse c with
  | inl err => (store, Some err)
  | inr pc =>
      let certs := default ∅ (store !! entryPointName) in
      (<[entryPointName :=
           foldl (λ certs name, <[name := tlsCert pc]> certs) certs
                 (serverNames pc)]> store,
       None)
  end.

(** Modelled from the spec: [FileOrContent.IsPath], declared outside the
    sources; "true when the value does not begin with the PEM certificate
    header marker". *)
Definition IsPath (f : FileOrContent) : bool :=
  negb (strings.HasPrefix (FileOrContent_String f) certificateHeader).

(** [store[ep][name]], [None] when either key is missing. *)
Definition certificateAt {TLSCert} (store : gmap string (gmap string TLSCert))
    (ep name : string) : option TLSCert :=
  store !! ep ≫= (.!! name).

(** The store the caller can reach through its own reference after a call:
    none through a [nil] reference. *)
Definition callerStore {TLSCert} (epConfiguration : option loc)
    (w : World TLSCert) : option (gmap string (gmap string TLSCert)) :=
  epConfiguration ≫= (maps w !!.).

(** The entry points an assignment is appended to: its own when it names
    any, the default ones otherwise. *)
Definition targets (defaultEntryPoints : list string) (c : Configuration)
  : list string :=
  if decide (len (Configuration.EntryPoints c) = 0)
  then defaultEntryPoints
  else elems (Configuration.EntryPoints c).

(** The record as the resolver leaves it. *)
Definition defaulted (defaultEntryPoints : list string) (c : Configuration)
  : Configuration :=
  if decide (len (Configuration.EntryPoints c) = 0)
  then Configuration.mk
         (append (Configuration.EntryPoints c) defaultEntryPoints)
         (Configuration.Certificate c)
  else c.

(** The server names the certificate step files a key pair under: none when
    the pair does not parse. *)
Definition namesOf {TLSCert}
    (parse : Certificate → error + ParsedCertificate TLSCert)
    (c : Certificate) : list string :=
  match parse c with
  | inl _ => []
  | inr pc => serverNames pc
  end.

(** The assignment [c] writes [store[ep][name]]. *)
Definition writes {TLSCert}
    (parse : Certificate → error + ParsedCertificate TLSCert)
    (defaultEntryPoints : list string) (c : Configuration)
    (ep name : string) : Prop :=
  ep ∈ targets defaultEntryPoints c
  ∧ name ∈ namesOf parse (Configuration.Certificate c).

(** ** What the resolver and the flag value amount to *)

(** The number of commas in [s]: [strings.Count(s, ",")]. *)
Fixpoint commas (s : string) : nat :=
  match s with
  | EmptyString => 0
  | String c s => (if decide (c = ","%char) then 1 else 0) + commas s
  end.

(** The calls of [AppendCertificates] that a sequence of assignments asks
    for, in the order of the two loops: each certificate with each of its
    targets. *)
Definition calls (defaultEntryPoints : list string)
    (cs : list Configuration) : list (Certificate * string) :=
  c ← cs;
  (λ ep, (Configuration.Certificate c, ep)) <$> targets defaultEntryPoints c.

(** The calls made one after the other on one store, up to the first that
    returns an error. *)
Fixpoint appendCalls {TLSCert}
    (appendCertificates :
       Certificate → gmap string (gmap string TLSCert) → string
       → gmap string (gmap string TLSCert) * option error)
    (cs : list (Certificate * string))
    (store : gmap string (gmap string TLSCert))
  : gmap string (gmap string TLSCert) * option error :=
  match cs with
  | [] => (store, None)
  | (c, ep) :: cs =>
      let '(store, err) := appendCertificates c store ep in
      match err with
      | Some err => (store, Some err)
      | None => appendCalls appendCertificates cs store
      end
  end.

(** [return nil] or [return err]. *)
Definition returned (err : option error) : result :=
  match err with
  | None => Ok
  | Some err => Failed err
  end.

(** ** Fixtures: three key pairs for one server name, and one that does not
    parse *)

Module Fixtures.

Definition certA : Certificate := mkCertificate "a.pem" "a.key".
Definition certB : Certificate := mkCertificate "b.pem" "b.key".
Definition certC : Certificate := mkCertificate "c.pem" "c.key".
Definition broken : Certificate := mkCertificate "broken.pem" "broken.key".

(** Inline PEM content: the header and 66 bytes after it. *)
Definition inlineBody : string :=
  "MIIDJzCCAg+gAwIBAgIUe7Zk0000000000000000000000000wDQYJKoZIhvcNAQEL".
Definition inline : Certificate :=
  mkCertificate (certificateHeader +:+ inlineBody) "inline.key".

Definition parseError : error := Errorf "tls: failed to find any PEM data".

(** The parsed certificate is named by its file. *)
Definition parse (c : Certificate) : error + ParsedCertificate string :=
  if decide (CertFile c = "broken.pem") then inl parseError
  else inr (mkParsed (CertFile c) "example.com" []).

Definition world (cs : list Configuration) : World string :=
  mkWorld (list_to_map (imap (λ i c, (i, c)) cs)) {[ 100 := ∅ ]} 0 [].

Definition debugWorld (cs : list Configuration) : World string :=
  mkWorld (list_to_map (imap (λ i c, (i, c)) cs)) {[ 100 := ∅ ]} 5 [].

(** The scenario of the specification: one assignment for ["websecure"]. *)
Definition explicit : list Configuration :=
  [Configuration.mk (Some ["websecure"]) certA].

(** Three assignments that write ["example.com"] for ["web"]; the middle
    one has no entry points. *)
Definition colliding : list Configuration :=
  [Configuration.mk (Some ["web"]) certB;
   Configuration.mk None certA;
   Configuration.mk (Some ["web"]) certC].

(** Two assignments that write ["example.com"] for ["web"], then one for
    another entry point. *)
Definition ordered : list Configuration :=
  [Configuration.mk (Some ["web"]) certA;
   Configuration.mk None certC;
   Configuration.mk (Some ["websecure"]) certB].

(** The second assignment does not parse; the third has no entry
    points. *)
Definition failing : list Configuration :=
  [Configuration.mk (Some ["web"]) certA;
   Configuration.mk (Some ["websecure"; "web"]) broken;
   Configuration.mk None certB].

(** No assignment names an entry point; the first does not parse. *)
Definition untargeted : list Configuration :=
  [Configuration.mk None broken;
   Configuration.mk (Some []) certA].

Definition run (cs : list Configuration) (epConfiguration : option loc)
    (defaultEntryPoints : list string) : World string * result :=
  SortTLSPerEntryPoints IsPath (AppendCertificates parse)
    (seq 0 (length cs)) epConfiguration defaultEntryPoints (world cs).

End Fixtures.

(** * Properties

    ** Splitting and joining *)

Example split_demo :
  strings.Split "a.pem,b.pem" "," = ["a.pem"; "b.pem"]
  ∧ strings.Split "" "," = [""]
  ∧ strings.Split ",a,," "," = [""; "a"; ""; ""]
  ∧ strings.Split "a--b-c" "--" = ["a"; "b-c"]
  ∧ String.length certificateHeader = 28.
Proof. repeat split; reflexivity. Qed.

Example scenario_explicit :
  let '(w, r) := Fixtures.run
      [Configuration.mk (Some ["websecure"]) Fixtures.certA] (Some 100)
      ["web"; "websecure"] in
  r = Ok ∧ callerStore (Some 100) w
           = Some {[ "websecure" := {[ "example.com" := "a.pem" ]} ]}.
Proof. vm_compute. split; reflexivity. Qed.

Section SplitJoin.

Lemma Split_comma_cons (c : ascii) (s : string) :
  strings.Split (String c s) ","
  = if decide (c = ","%char)
    then "" :: strings.Split s ","
    else strings.extend c (strings.Split s ",").
Proof.
  unfold strings.Split. cbn [strings.genSplit String.prefix].
  destruct (ascii_dec "," c) as [<-|Hne].
  - rewrite decide_True by done. by destruct s.
  - rewrite decide_False by congruence. done.
Qed.

Lemma Split_comma_nonempty (s : string) : strings.Split s "," ≠ [].
Proof.
  destruct s as [|c s]; [done|]. rewrite Split_comma_cons.
  case_decide; [done|]. by destruct (strings.Split s ",").
Qed.

Lemma Split_comma_length (s : string) : 0 < length (strings.Split s ",").
Proof.
  pose proof (Split_comma_nonempty s).
  destruct (strings.Split s ","); simpl; [done | lia].
Qed.

Lemma Join_cons (x y : string) (l : list string) (sep : string) :
  strings.Join (x :: y :: l) sep = x +:+ sep +:+ strings.Join (y :: l) sep.
Proof. reflexivity. Qed.

Lemma Join_Split_comma (s : string) :
  strings.Join (strings.Split s ",") "," = s.
Proof.
  induction s as [|c s IH]; [done|].
  rewrite Split_comma_cons. pose proof (Split_comma_nonempty s) as Hne.
  destruct (strings.Split s ",") as [|w ws]; [done|].
  case_decide as Hc.
  - subst c. rewrite Join_cons, IH. done.
  - cbn [strings.extend]. destruct ws as [|w' ws].
    + cbn in *. by subst.
    + rewrite Join_cons. rewrite Join_cons in IH. by rewrite <-IH.
Qed.

(** A piece cut out by [Split] on [","] holds no comma. *)
Lemma Split_comma_pieces (s : string) :
  Forall (λ piece, ","%char ∉ String.list_ascii_of_string piece)
         (strings.Split s ",").
Proof.
  induction s as [|c s IH].
  - repeat constructor. cbn. by intros ?%elem_of_nil.
  - rewrite Split_comma_cons. case_decide as Hc.
    + constructor; [|done]. cbn. by intros ?%elem_of_nil.
    + destruct (strings.Split s ",") as [|w ws]; cbn [strings.extend].
      * repeat constructor. cbn. rewrite not_elem_of_cons.
        split; [congruence | apply not_elem_of_nil].
      * apply Forall_cons in IH as [Hw Hws]. constructor; [|done].
        cbn. rewrite not_elem_of_cons. split; [congruence | done].
Qed.

Lemma range_append {A} (r l : list A) :
  foldl (λ acc x, acc ++ [x]) r l = r ++ l.
Proof.
  revert r. induction l as [|x l IH]; intros r; cbn.
  - by rewrite app_nil_r.
  - by rewrite IH, <-app_assoc.
Qed.

Lemma Set_eq (r : FilesOrContents) (value : string) :
  FilesOrContents_Set r value = (r ++ strings.Split value ",", None).
Proof.
  unfold FilesOrContents_Set. pose proof (Split_comma_length value).
  rewrite decide_False by lia. by rewrite range_append.
Qed.

End SplitJoin.

(** ** [FilesOrContents.Set] and [FilesOrContents.String] *)

(** C6: [Set] on the empty string does not fail: [strings.Split] gives the
    one piece [""] there, the test [len(filesOrContents) == 0] is false, the
    empty piece is appended and [nil] is returned. *)
Theorem Set_empty_string_succeeds (r : FilesOrContents) :
  strings.Split "" "," = [""]
  ∧ FilesOrContents_Set r "" = (r ++ [""], None).
Proof. split; [reflexivity | apply Set_eq]. Qed.

(** [Set] returns no error on any value: the format error is out of reach. *)
Lemma Set_never_fails (r : FilesOrContents) (value : string) :
  (FilesOrContents_Set r value).2 = None.
Proof. by rewrite Set_eq. Qed.

(** C7: [Set(s)] on an empty list followed by [String()] gives [s] back, for
    every string [s]; no element that [Set] appends holds a comma. *)
Theorem Set_String_roundtrip (s : string) :
  (FilesOrContents_Set [] s).2 = None
  ∧ Forall (λ f, ","%char ∉ String.list_ascii_of_string
                               (FileOrContent_String f))
           (FilesOrContents_Set [] s).1
  ∧ FilesOrContents_String (FilesOrContents_Set [] s).1 = s.
Proof.
  rewrite Set_eq. cbn [fst snd app]. split_and!.
  - done.
  - apply Split_comma_pieces.
  - unfold FilesOrContents_String, FileOrContent_String.
    rewrite map_id. apply Join_Split_comma.
Qed.

Example Set_String_scenario :
  FilesOrContents_String (FilesOrContents_Set [] "a.pem,b.pem").1
  = "a.pem,b.pem".
Proof. reflexivity. Qed.

(** C8: [Set] keeps the elements the list had, in order, and appends the
    comma-separated pieces of its argument after them; a second call adds
    its pieces after those of the first. *)
Theorem Set_additive (r : FilesOrContents) (value : string) :
  FilesOrContents_Set r value = (r ++ strings.Split value ",", None)
  ∧ ∀ value' : string,
      FilesOrContents_Set (FilesOrContents_Set r value).1 value'
      = (r ++ strings.Split value "," ++ strings.Split value' ",", None).
Proof.
  split; [apply Set_eq|]. intros value'.
  rewrite (Set_eq r). cbn [fst]. by rewrite Set_eq, <-app_assoc.
Qed.

Example Set_twice :
  (FilesOrContents_Set (FilesOrContents_Set ["ca.pem"] "a.pem,b.pem").1
                       "c.pem").1
  = ["ca.pem"; "a.pem"; "b.pem"; "c.pem"].
Proof. reflexivity. Qed.

(** ** The resolver, over any [IsPath] and [AppendCertificates] *)

Section ResolverFacts.

Context {TLSCert : Type}.
Variable isPath : FileOrContent → bool.
Variable appendCertificates :
  Certificate → gmap string (gmap string TLSCert) → string
  → gmap string (gmap string TLSCert) * option error.

Implicit Types (w : World TLSCert) (c : Configuration) (p m : loc).
Implicit Types (store : gmap string (gmap string TLSCert)).
Implicit Types (defaults eps : list string) (ps : list loc).

Local Abbreviation forConf := (forConfiguration isPath appendCertificates).
Local Abbreviation rangeConfs :=
  (rangeConfigurations isPath appendCertificates).
Local Abbreviation rangeEps := (rangeEntryPoints appendCertificates).

(** *** Slices *)

Lemma elems_append (s : slice string) (xs : list string) :
  elems (append s xs) = elems s ++ xs.
Proof. destruct xs; cbn; [by rewrite app_nil_r | done]. Qed.

Lemma len_zero_elems (s : slice string) : len s = 0 → elems s = [].
Proof. unfold len. by intros ?%nil_length_inv. Qed.

Lemma defaulted_Certificate defaults c :
  Configuration.Certificate (defaulted defaults c)
  = Configuration.Certificate c.
Proof. unfold defaulted. by case_decide. Qed.

Lemma defaulted_elems defaults c :
  elems (Configuration.EntryPoints (defaulted defaults c))
  = targets defaults c.
Proof.
  unfold defaulted, targets. case_decide as H; [|done].
  cbn [Configuration.EntryPoints].
  by rewrite elems_append, (len_zero_elems _ H).
Qed.

Lemma targets_defaulted defaults c :
  targets defaults (defaulted defaults c) = targets defaults c.
Proof.
  unfold targets at 1. rewrite defaulted_elems. case_decide as H; [|done].
  unfold len in H. rewrite defaulted_elems in H.
  apply nil_length_inv in H. unfold targets in *.
  case_decide as H'; [done|]. unfold len in H'. by rewrite H in H'.
Qed.

Lemma defaulted_idemp defaults c :
  defaulted defaults (defaulted defaults c) = defaulted defaults c.
Proof.
  unfold defaulted at 1. case_decide as H; [|done].
  unfold defaulted in *. case_decide as H'; [|done].
  cbn [Configuration.EntryPoints Configuration.Certificate] in *.
  unfold len in H. rewrite elems_append, (len_zero_elems _ H') in H.
  cbn in H. by apply nil_length_inv in H as ->.
Qed.

(** *** The state outside the store *)

Lemma defaultEntryPointsOf_confs p c defaults w :
  confs (defaultEntryPointsOf isPath p c defaults w)
  = if decide (len (Configuration.EntryPoints c) = 0)
    then <[p := defaulted defaults c]> (confs w)
    else confs w.
Proof.
  unfold defaultEntryPointsOf, defaulted.
  case_decide; [|done]. by destruct (DebugLevel <=? logLevel w).
Qed.

Lemma defaultEntryPointsOf_maps p c defaults w :
  maps (defaultEntryPointsOf isPath p c defaults w) = maps w.
Proof.
  unfold defaultEntryPointsOf.
  case_decide; [|done]. by destruct (DebugLevel <=? logLevel w).
Qed.

Lemma defaultEntryPointsOf_lookup p c defaults w :
  confs w !! p = Some c →
  confs (defaultEntryPointsOf isPath p c defaults w) !! p
  = Some (defaulted defaults c).
Proof.
  intros Hp. rewrite defaultEntryPointsOf_confs. unfold defaulted.
  case_decide; [by rewrite lookup_insert_eq | done].
Qed.

Lemma rangeEntryPoints_frame cert m eps w w' r :
  rangeEps cert m eps w = (w', r) →
  confs w' = confs w ∧ logs w' = logs w ∧ logLevel w' = logLevel w
  ∧ ∀ l, l ≠ m → maps w' !! l = maps w !! l.
Proof.
  revert w. induction eps as [|ep eps IH]; intros w; cbn.
  - by intros [= <- <-].
  - destruct (maps w !! m) as [store|] eqn:Hm; [|by intros [= <- <-]].
    destruct (appendCertificates cert store ep) as [store' [err|]].
    + intros [= <- <-]. cbn. split_and!; try done.
      intros l Hl. by rewrite lookup_insert_ne.
    + intros (-> & -> & -> & Hmaps)%IH. cbn. split_and!; try done.
      intros l Hl. rewrite Hmaps by done. cbn. by rewrite lookup_insert_ne.
Qed.

Lemma rangeEntryPoints_allocated cert m eps w w' r :
  rangeEps cert m eps w = (w', r) →
  is_Some (maps w !! m) → is_Some (maps w' !! m).
Proof.
  revert w. induction eps as [|ep eps IH]; intros w; cbn.
  - by intros [= <- <-].
  - destruct (maps w !! m) as [store|] eqn:Hm; [|by intros [= <- <-]].
    destruct (appendCertificates cert store ep) as [store' [err|]].
    + intros [= <- <-] _. cbn. rewrite lookup_insert_eq. eauto.
    + intros Hrun _. apply (IH _ Hrun). cbn.
      rewrite lookup_insert_eq. eauto.
Qed.

Lemma rangeEntryPoints_app cert m eps eps' w :
  rangeEps cert m (eps ++ eps') w
  = match rangeEps cert m eps w with
    | (w1, Ok) => rangeEps cert m eps' w1
    | other => other
    end.
Proof.
  revert w. induction eps as [|ep eps IH]; intros w; cbn; [done|].
  destruct (maps w !! m) as [store|]; [|done].
  destruct (appendCertificates cert store ep) as [store' [err|]]; [done|].
  apply IH.
Qed.

(** *** The body of the loop *)

Lemma forConfiguration_eq p m defaults w c :
  confs w !! p = Some c →
  forConf p m defaults w
  = rangeEps (Configuration.Certificate c) m (targets defaults c)
             (defaultEntryPointsOf isPath p c defaults w).
Proof.
  intros Hp. unfold forConfiguration. rewrite Hp.
  rewrite (defaultEntryPointsOf_lookup _ _ _ _ Hp).
  by rewrite defaulted_Certificate, defaulted_elems.
Qed.

Lemma forConfiguration_nil p m defaults w :
  confs w !! p = None → forConf p m defaults w = (w, Panicked).
Proof. intros Hp. unfold forConfiguration. by rewrite Hp. Qed.

Lemma forConfiguration_confs p m defaults w w' r c :
  confs w !! p = Some c →
  forConf p m defaults w = (w', r) →
  confs w' = <[p := defaulted defaults c]> (confs w).
Proof.
  intros Hp. rewrite (forConfiguration_eq _ _ _ _ _ Hp).
  intros (-> & _)%rangeEntryPoints_frame.
  rewrite defaultEntryPointsOf_confs. unfold defaulted.
  case_decide; [done|]. by rewrite insert_id.
Qed.

Lemma forConfiguration_maps p m defaults w w' r l :
  forConf p m defaults w = (w', r) →
  l ≠ m → maps w' !! l = maps w !! l.
Proof.
  destruct (confs w !! p) as [c|] eqn:Hp.
  - rewrite (forConfiguration_eq _ _ _ _ _ Hp).
    intros (_ & _ & _ & Hmaps)%rangeEntryPoints_frame Hl.
    by rewrite Hmaps, defaultEntryPointsOf_maps.
  - rewrite (forConfiguration_nil _ _ _ _ Hp). by intros [= <- <-].
Qed.

Lemma forConfiguration_allocated p m defaults w w' r :
  forConf p m defaults w = (w', r) →
  is_Some (maps w !! m) → is_Some (maps w' !! m).
Proof.
  destruct (confs w !! p) as [c|] eqn:Hp.
  - rewrite (forConfiguration_eq _ _ _ _ _ Hp). intros Hrun Hm.
    apply (rangeEntryPoints_allocated _ _ _ _ _ _ Hrun).
    by rewrite defaultEntryPointsOf_maps.
  - rewrite (forConfiguration_nil _ _ _ _ Hp). by intros [= <- <-].
Qed.

(** *** The loop over the assignments *)

Lemma rangeConfigurations_app ps ps' m defaults w :
  rangeConfs (ps ++ ps') m defaults w
  = match rangeConfs ps m defaults w with
    | (w1, Ok) => rangeConfs ps' m defaults w1
    | other => other
    end.
Proof.
  revert w. induction ps as [|p ps IH]; intros w; cbn; [done|].
  destruct (forConf p m defaults w) as [w1 [|err|]]; [apply IH|done..].
Qed.

Lemma rangeConfigurations_maps ps m defaults w w' r l :
  rangeConfs ps m defaults w = (w', r) →
  l ≠ m → maps w' !! l = maps w !! l.
Proof.
  revert w. induction ps as [|p ps IH]; intros w; cbn.
  - by intros [= <- <-].
  - destruct (forConf p m defaults w) as [w1 r1] eqn:Hp. intros Hrun Hl.
    rewrite <-(forConfiguration_maps _ _ _ _ _ _ _ Hp Hl).
    destruct r1; [by apply IH | by injection Hrun as <- <- ..].
Qed.

Lemma rangeConfigurations_allocated ps m defaults w w' r :
  rangeConfs ps m defaults w = (w', r) →
  is_Some (maps w !! m) → is_Some (maps w' !! m).
Proof.
  revert w. induction ps as [|p ps IH]; intros w; cbn.
  - by intros [= <- <-].
  - destruct (forConf p m defaults w) as [w1 r1] eqn:Hp. intros Hrun Hm.
    pose proof (forConfiguration_allocated _ _ _ _ _ _ Hp Hm).
    destruct r1; [by eapply IH | by injection Hrun as <- <- ..].
Qed.

(** The records after the loop: those of the assignments it reached are
    defaulted, all others are as they were. *)
Lemma rangeConfigurations_confs ps m defaults w w' r :
  rangeConfs ps m defaults w = (w', r) →
  ∃ reached rest,
    ps = reached ++ rest
    ∧ (r = Ok → rest = [])
    ∧ (∀ p c, p ∈ reached → confs w !! p = Some c →
              confs w' !! p = Some (defaulted defaults c))
    ∧ (∀ q, q ∉ reached → confs w' !! q = confs w !! q).
Proof.
  revert w. induction ps as [|p ps IH]; intros w; cbn.
  { intros [= <- <-]. exists [], []. split_and!; try done.
    by intros ?? ?%elem_of_nil. }
  destruct (confs w !! p) as [c|] eqn:Hp; cycle 1.
  { rewrite (forConfiguration_nil _ _ _ _ Hp). intros [= <- <-].
    exists [], (p :: ps). split_and!; try done.
    by intros ?? ?%elem_of_nil. }
  destruct (forConf p m defaults w) as [w1 r1] eqn:Hstep.
  pose proof (forConfiguration_confs _ _ _ _ _ _ _ Hp Hstep) as Hconfs.
  assert (r1 ≠ Ok → (w1, r1) = (w', r) →
          ∃ reached rest, p :: ps = reached ++ rest ∧ (r = Ok → rest = [])
            ∧ (∀ p0 c0, p0 ∈ reached → confs w !! p0 = Some c0 →
                        confs w' !! p0 = Some (defaulted defaults c0))
            ∧ (∀ q, q ∉ reached → confs w' !! q = confs w !! q)) as Hstop.
  { intros Hr1 [= <- <-]. exists [p], ps. split_and!; try done.
    - intros q cq ->%list_elem_of_singleton Hq.
      rewrite Hconfs, lookup_insert_eq. congruence.
    - intros q [Hne _]%not_elem_of_cons. rewrite Hconfs.
      by apply lookup_insert_ne. }
  destruct r1; [|by apply Hstop..]. clear Hstop.
  intros (reached & rest & -> & Hrest & Hin & Hout)%IH.
  exists (p :: reached), rest. split_and!; try done.
  - intros q cq Hq Hlook.
    destruct (decide (q ∈ reached)) as [Hq'|Hq'].
    + destruct (decide (q = p)) as [->|Hne].
      * rewrite (Hin p (defaulted defaults c)); [|done|].
        -- rewrite defaulted_idemp. congruence.
        -- by rewrite Hconfs, lookup_insert_eq.
      * apply Hin; [done|]. by rewrite Hconfs, lookup_insert_ne.
    + apply elem_of_cons in Hq as [->|?]; [|done].
      rewrite (Hout _ Hq'), Hconfs, lookup_insert_eq. congruence.
  - intros q [Hne Hq]%not_elem_of_cons.
    rewrite (Hout _ Hq), Hconfs. by apply lookup_insert_ne.
Qed.

(** *** Claims that hold for every certificate step *)

(** C2: when the assignments before [p] have been resolved and, for [p],
    the entry points before [ep] as well, and the call of
    [AppendCertificates] for [ep] returns the error [err], then the
    resolution of the whole sequence returns [err] itself, and the state it
    leaves is the state at that call: the store is the one the failing
    call left, nothing is undone and no later entry point or assignment
    is looked at. *)
Theorem abort_on_first_failure pre p post m defaults w w1 c eps1 ep eps2 w2
    store store' err :
  SortTLSPerEntryPoints isPath appendCertificates pre (Some m) defaults w
  = (w1, Ok) →
  confs w1 !! p = Some c →
  targets defaults c = eps1 ++ ep :: eps2 →
  rangeEps (Configuration.Certificate c) m eps1
           (defaultEntryPointsOf isPath p c defaults w1) = (w2, Ok) →
  maps w2 !! m = Some store →
  appendCertificates (Configuration.Certificate c) store ep
  = (store', Some err) →
  SortTLSPerEntryPoints isPath appendCertificates (pre ++ p :: post)
                        (Some m) defaults w
  = (setMap m store' w2, Failed err).
Proof.
  unfold SortTLSPerEntryPoints. intros Hpre Hp Htargets Heps Hm Hfail.
  rewrite rangeConfigurations_app, Hpre.
  cbn [rangeConfigurations].
  rewrite (forConfiguration_eq _ _ _ _ _ Hp), Htargets.
  rewrite rangeEntryPoints_app, Heps.
  cbn [rangeEntryPoints]. by rewrite Hm, Hfail.
Qed.

(** With a [nil] map the resolver works on a map object of its own: the
    caller's reference stays [nil] and every map object that existed
    before the call is as it was. *)
Lemma nil_store_unreachable ps defaults w w' r :
  SortTLSPerEntryPoints isPath appendCertificates ps None defaults w
  = (w', r) →
  callerStore None w' = None
  ∧ ∀ l, is_Some (maps w !! l) → maps w' !! l = maps w !! l.
Proof.
  unfold SortTLSPerEntryPoints, makeMap. intros Hrun. split; [done|].
  intros l Hl. set (m := fresh (dom (maps w))) in *.
  assert (l ≠ m) as Hne.
  { intros ->. apply elem_of_dom in Hl. by apply is_fresh in Hl. }
  rewrite (rangeConfigurations_maps _ _ _ _ _ _ _ Hrun Hne).
  cbn. by apply lookup_insert_ne.
Qed.


End ResolverFacts.

(** ** The diagnostic of a defaulted assignment *)

Section Substrings.

Lemma prefix_append (a b : string) : String.prefix a (a +:+ b) = true.
Proof.
  induction a as [|x a IH]; simpl; [by destruct b|].
  by destruct (ascii_dec x x).
Qed.

Lemma length_append (a b : string) :
  String.length (a +:+ b) = String.length a + String.length b.
Proof. induction a as [|x a IH]; simpl; [done | by rewrite IH]. Qed.

Lemma substring_append (a b : string) (n : nat) :
  String.substring (String.length a) n (a +:+ b) = String.substring 0 n b.
Proof. induction a as [|x a IH]; simpl; [done | apply IH]. Qed.

Lemma substring_all (b : string) :
  String.substring 0 (String.length b) b = b.
Proof. induction b as [|x b IH]; simpl; [done | by rewrite IH]. Qed.

Lemma substring_length (n : nat) (s : string) :
  n ≤ String.length s → String.length (String.substring 0 n s) = n.
Proof.
  revert s. induction n as [|n IH]; intros [|x s]; simpl; try done; try lia.
  intros Hn. rewrite IH; lia.
Qed.

Lemma TrimPrefix_append (a b : string) : strings.TrimPrefix (a +:+ b) a = b.
Proof.
  unfold strings.TrimPrefix, strings.HasPrefix.
  rewrite prefix_append, length_append, substring_append.
  replace (String.length a + String.length b - String.length a)
    with (String.length b) by lia.
  apply substring_all.
Qed.

End Substrings.

Section Diagnostic.

Context {TLSCert : Type}.
Variable isPath : FileOrContent → bool.
Variable appendCertificates :
  Certificate → gmap string (gmap string TLSCert) → string
  → gmap string (gmap string TLSCert) * option error.

Lemma certName_path (c : Configuration) :
  isPath (CertFile (Configuration.Certificate c)) = true →
  certName isPath c = CertFile (Configuration.Certificate c).
Proof. unfold certName. by intros ->. Qed.

Lemma certName_no_header (c : Configuration) :
  strings.HasPrefix (CertFile (Configuration.Certificate c))
                    certificateHeader = false →
  certName isPath c = CertFile (Configuration.Certificate c).
Proof.
  unfold certName, FileOrContent_String. intros ->.
  by rewrite andb_false_r.
Qed.

Lemma certName_content (c : Configuration) (body : string) :
  isPath (CertFile (Configuration.Certificate c)) = false →
  CertFile (Configuration.Certificate c) = certificateHeader +:+ body →
  certName isPath c
  = if 50 <? String.length body
    then String.substring 0 50 body
    else CertFile (Configuration.Certificate c).
Proof.
  unfold certName, FileOrContent_String. intros -> ->.
  unfold strings.HasPrefix at 1.
  rewrite prefix_append, TrimPrefix_append, length_append. cbn [negb andb].
  destruct (50 <? String.length body) eqn:Hlen.
  - apply Nat.ltb_lt in Hlen.
    by rewrite (proj2 (Nat.ltb_lt _ _)) by lia.
  - apply Nat.ltb_ge in Hlen.
    by rewrite (proj2 (Nat.ltb_ge _ _)) by lia.
Qed.


End Diagnostic.

(** ** The resolver with the certificate step of the specification *)

Section WithAppendCertificates.

Context {TLSCert : Type}.
Variable isPath : FileOrContent → bool.
Variable parse : Certificate → error + ParsedCertificate TLSCert.

Implicit Types (w : World TLSCert) (c : Configuration) (p m : loc).
Implicit Types (store certs : gmap string (gmap string TLSCert)).
Implicit Types (defaults eps : list string) (ps : list loc).
Implicit Types (pc : ParsedCertificate TLSCert).

Local Abbreviation forConf :=
  (forConfiguration isPath (AppendCertificates parse)).
Local Abbreviation rangeConfs :=
  (rangeConfigurations isPath (AppendCertificates parse)).
Local Abbreviation rangeEps :=
  (rangeEntryPoints (AppendCertificates parse)).

(** *** One call *)

Lemma lookup_insert_names (t : TLSCert) (names : list string)
    (inner : gmap string TLSCert) (n : string) :
  foldl (λ inner name, <[name := t]> inner) inner names !! n
  = if decide (n ∈ names) then Some t else inner !! n.
Proof.
  revert inner. induction names as [|name names IH]; intros inner; cbn.
  - rewrite decide_False; [done | apply not_elem_of_nil].
  - rewrite IH. destruct (decide (n ∈ names)) as [Hn|Hn].
    + rewrite decide_True; [done | by right].
    + destruct (decide (n = name)) as [->|Hne].
      * rewrite lookup_insert_eq, decide_True; [done | by left].
      * rewrite lookup_insert_ne by done.
        rewrite decide_False; [done|]. by intros [?|?]%elem_of_cons.
Qed.

Lemma AppendCertificates_failed cert store ep err :
  parse cert = inl err →
  AppendCertificates parse cert store ep = (store, Some err).
Proof. unfold AppendCertificates. by intros ->. Qed.

Lemma AppendCertificates_parsed cert store ep pc :
  parse cert = inr pc →
  ∃ store',
    AppendCertificates parse cert store ep = (store', None)
    ∧ (∀ ep', ep' ≠ ep → store' !! ep' = store !! ep')
    ∧ (∀ n, certificateAt store' ep n
            = if decide (n ∈ serverNames pc) then Some (tlsCert pc)
              else certificateAt store ep n).
Proof.
  unfold AppendCertificates. intros ->. eexists. split_and!; [done|..].
  - intros ep' Hne. by rewrite lookup_insert_ne.
  - intros n. unfold certificateAt. rewrite lookup_insert_eq.
    cbn [mbind option_bind]. rewrite lookup_insert_names.
    case_decide; [done|]. destruct (store !! ep); [done|apply lookup_empty].
Qed.

Lemma certificateAt_frame store store' ep n :
  store' !! ep = store !! ep →
  certificateAt store' ep n = certificateAt store ep n.
Proof. unfold certificateAt. by intros ->. Qed.

(** *** The entry points of one assignment *)

Lemma rangeEntryPoints_store cert eps m w w' r store :
  maps w !! m = Some store →
  rangeEps cert m eps w = (w', r) →
  ∃ store',
    maps w' !! m = Some store'
    ∧ (∀ ep, ep ∉ eps → store' !! ep = store !! ep)
    ∧ (∀ ep n, ¬ (ep ∈ eps ∧ n ∈ namesOf parse cert) →
               certificateAt store' ep n = certificateAt store ep n)
    ∧ (r = Ok → ∀ pc ep n,
         parse cert = inr pc → ep ∈ eps → n ∈ serverNames pc →
         certificateAt store' ep n = Some (tlsCert pc)).
Proof.
  revert w store. induction eps as [|ep0 eps IH]; intros w store Hm; cbn.
  { intros [= <- <-]. exists store. split_and!; try done.
    by intros _ ??? _ ?%elem_of_nil. }
  rewrite Hm. destruct (parse cert) as [err|pc] eqn:Hparse.
  - rewrite (AppendCertificates_failed _ _ _ _ Hparse).
    intros [= <- <-]. exists store. cbn. rewrite lookup_insert_eq.
    split_and!; done.
  - destruct (AppendCertificates_parsed _ store ep0 _ Hparse)
      as (store1 & -> & Hother & Hat).
    intros Hrun.
    destruct (IH (setMap m store1 w) store1) with (2 := Hrun)
      as (store' & Hm' & Hframe & Hkeep & Hnew).
    { cbn. by rewrite lookup_insert_eq. }
    exists store'. split_and!; [done|..].
    + intros ep [Hne Hep]%not_elem_of_cons.
      rewrite (Hframe _ Hep). by apply Hother.
    + intros ep n Hno. rewrite Hkeep by (intros [??]; apply Hno;
        split; [by right | done]).
      destruct (decide (ep = ep0)) as [->|Hne].
      * rewrite Hat, decide_False; [done|]. intros Hn. apply Hno.
        split; [by left|]. unfold namesOf. by rewrite Hparse.
      * apply certificateAt_frame. by apply Hother.
    + intros -> pc' ep n [= <-] Hep Hn.
      destruct (decide (ep ∈ eps)) as [Hin|Hout]; [by eapply Hnew|].
      apply elem_of_cons in Hep as [->|?]; [|done].
      rewrite (certificateAt_frame store1 store') by by apply Hframe.
      rewrite Hat. by rewrite decide_True.
Qed.

(** *** One assignment *)

Lemma forConfiguration_store p m defaults w w' r c store :
  confs w !! p = Some c →
  maps w !! m = Some store →
  forConf p m defaults w = (w', r) →
  ∃ store',
    maps w' !! m = Some store'
    ∧ (∀ ep, ep ∉ targets defaults c → store' !! ep = store !! ep)
    ∧ (∀ ep n, ¬ writes parse defaults c ep n →
               certificateAt store' ep n = certificateAt store ep n)
    ∧ (r = Ok → ∀ pc ep n,
         parse (Configuration.Certificate c) = inr pc →
         ep ∈ targets defaults c → n ∈ serverNames pc →
         certificateAt store' ep n = Some (tlsCert pc)).
Proof.
  intros Hp Hm. rewrite (forConfiguration_eq _ _ _ _ _ _ _ Hp).
  apply rangeEntryPoints_store. by rewrite defaultEntryPointsOf_maps.
Qed.

(** The records keep their certificate and their targets. *)
Lemma forConfiguration_plan p m defaults w w' r q :
  forConf p m defaults w = (w', r) →
  confs w' !! q = confs w !! q
  ∨ ∃ c, confs w !! q = Some c
         ∧ confs w' !! q = Some (defaulted defaults c).
Proof.
  destruct (confs w !! p) as [c|] eqn:Hp.
  - intros ->%(forConfiguration_confs _ _ _ _ _ _ _ _ _ Hp).
    destruct (decide (q = p)) as [->|Hne].
    + right. exists c. by rewrite lookup_insert_eq.
    + left. by apply lookup_insert_ne.
  - rewrite (forConfiguration_nil _ _ _ _ _ _ Hp). intros [= <- <-].
    by left.
Qed.

Lemma rangeConfigurations_plan ps m defaults w w' r q :
  rangeConfs ps m defaults w = (w', r) →
  confs w' !! q = confs w !! q
  ∨ ∃ c, confs w !! q = Some c
         ∧ confs w' !! q = Some (defaulted defaults c).
Proof.
  revert w. induction ps as [|p ps IH]; intros w; cbn.
  { intros [= <- <-]. by left. }
  destruct (forConf p m defaults w) as [w1 r1] eqn:Hstep.
  pose proof (forConfiguration_plan _ _ _ _ _ _ q Hstep) as Hfirst.
  destruct r1; [|by intros [= <- <-]..].
  intros [Hrest|(c1 & Hc1 & Hrest)]%IH.
  - by rewrite Hrest.
  - destruct Hfirst as [Hfirst|(c & Hc & Hfirst)].
    + right. exists c1. by rewrite <-Hfirst.
    + right. exists c. split; [done|]. rewrite Hrest.
      rewrite Hfirst in Hc1. injection Hc1 as <-.
      by rewrite defaulted_idemp.
Qed.

Lemma plan_forward defaults w w' q c :
  (confs w' !! q = confs w !! q
   ∨ ∃ c, confs w !! q = Some c
          ∧ confs w' !! q = Some (defaulted defaults c)) →
  confs w !! q = Some c →
  ∃ c', confs w' !! q = Some c'
    ∧ Configuration.Certificate c' = Configuration.Certificate c
    ∧ targets defaults c' = targets defaults c.
Proof.
  intros [Heq|(c0 & Hc0 & Hc')] Hc.
  - exists c. by rewrite Heq.
  - exists (defaulted defaults c0). rewrite Hc in Hc0. injection Hc0 as <-.
    by rewrite defaulted_Certificate, targets_defaulted.
Qed.

Lemma plan_backward defaults w w' q c' :
  (confs w' !! q = confs w !! q
   ∨ ∃ c, confs w !! q = Some c
          ∧ confs w' !! q = Some (defaulted defaults c)) →
  confs w' !! q = Some c' →
  ∃ c, confs w !! q = Some c
    ∧ Configuration.Certificate c' = Configuration.Certificate c
    ∧ targets defaults c' = targets defaults c.
Proof.
  intros [Heq|(c0 & Hc0 & Hc')] Hc.
  - exists c'. by rewrite <-Heq.
  - exists c0. rewrite Hc in Hc'. injection Hc' as ->.
    by rewrite defaulted_Certificate, targets_defaulted.
Qed.

Lemma writes_plan defaults c c' ep n :
  Configuration.Certificate c' = Configuration.Certificate c →
  targets defaults c' = targets defaults c →
  writes parse defaults c' ep n ↔ writes parse defaults c ep n.
Proof. unfold writes. by intros -> ->. Qed.

(** *** The whole sequence *)

(** What no assignment of the sequence touches is as it was. *)
Lemma rangeConfigurations_store ps m defaults w w' r store :
  maps w !! m = Some store →
  rangeConfs ps m defaults w = (w', r) →
  ∃ store',
    maps w' !! m = Some store'
    ∧ (∀ ep, (∀ q cq, q ∈ ps → confs w !! q = Some cq →
                      ep ∉ targets defaults cq) →
             store' !! ep = store !! ep)
    ∧ (∀ ep n, (∀ q cq, q ∈ ps → confs w !! q = Some cq →
                        ¬ writes parse defaults cq ep n) →
               certificateAt store' ep n = certificateAt store ep n).
Proof.
  revert w store. induction ps as [|p ps IH]; intros w store Hm; cbn.
  { intros [= <- <-]. by exists store. }
  destruct (confs w !! p) as [c|] eqn:Hp; cycle 1.
  { rewrite (forConfiguration_nil _ _ _ _ _ _ Hp). intros [= <- <-].
    by exists store. }
  destruct (forConf p m defaults w) as [w1 r1] eqn:Hstep.
  destruct (forConfiguration_store _ _ _ _ _ _ _ _ Hp Hm Hstep)
    as (store1 & Hm1 & Hframe1 & Hkeep1 & _).
  assert (∀ q cq1, q ∈ ps → confs w1 !! q = Some cq1 →
          ∃ cq, q ∈ p :: ps ∧ confs w !! q = Some cq
            ∧ Configuration.Certificate cq1 = Configuration.Certificate cq
            ∧ targets defaults cq1 = targets defaults cq) as Hback.
  { intros q cq1 Hq Hcq1.
    destruct (plan_backward defaults w w1 q cq1) as (cq & ? & ? & ?);
      [by eapply forConfiguration_plan | done |].
    exists cq. split_and!; [by right | done..]. }
  assert (∃ store',
    maps w1 !! m = Some store'
    ∧ (∀ ep, (∀ q cq, q ∈ p :: ps → confs w !! q = Some cq →
                      ep ∉ targets defaults cq) →
             store' !! ep = store !! ep)
    ∧ (∀ ep n, (∀ q cq, q ∈ p :: ps → confs w !! q = Some cq →
                        ¬ writes parse defaults cq ep n) →
               certificateAt store' ep n = certificateAt store ep n))
    as Hstop.
  { exists store1. split_and!; [done|..].
    - intros ep Hno. apply Hframe1, (Hno p); [by left | done].
    - intros ep n Hno. apply Hkeep1, (Hno p); [by left | done]. }
  destruct r1; [|by intros [= <- <-]..]. clear Hstop.
  intros (store' & Hm' & Hframe & Hkeep)%(IH _ _ Hm1).
  exists store'. split_and!; [done|..].
  - intros ep Hno. rewrite Hframe.
    + apply Hframe1, (Hno p); [by left | done].
    + intros q cq1 Hq Hcq1.
      destruct (Hback _ _ Hq Hcq1) as (cq & Hin & Hcq & _ & ->).
      by apply (Hno q).
  - intros ep n Hno. rewrite Hkeep.
    + apply Hkeep1, (Hno p); [by left | done].
    + intros q cq1 Hq Hcq1.
      destruct (Hback _ _ Hq Hcq1) as (cq & Hin & Hcq & Hcert & Htargets).
      rewrite (writes_plan _ _ _ _ _ Hcert Htargets). by apply (Hno q).
Qed.

(** The last assignment that writes [store[ep][n]] decides it. *)
Lemma last_write_wins pre p post m defaults w w' store c pc ep n :
  rangeConfs (pre ++ p :: post) m defaults w = (w', Ok) →
  maps w !! m = Some store →
  confs w !! p = Some c →
  parse (Configuration.Certificate c) = inr pc →
  ep ∈ targets defaults c →
  n ∈ serverNames pc →
  (∀ q cq, q ∈ post → confs w !! q = Some cq →
           ¬ writes parse defaults cq ep n) →
  ∃ store',
    maps w' !! m = Some store'
    ∧ certificateAt store' ep n = Some (tlsCert pc).
Proof.
  intros Hrun Hm Hp Hparse Hep Hn Hno.
  rewrite rangeConfigurations_app in Hrun.
  destruct (rangeConfs pre m defaults w) as [w1 r1] eqn:Hpre.
  destruct r1; [|done..]. cbn [rangeConfigurations] in Hrun.
  destruct (forConf p m defaults w1) as [w2 r2] eqn:Hstep.
  destruct r2; [|done..].
  destruct (rangeConfigurations_store _ _ _ _ _ _ _ Hm Hpre)
    as (store1 & Hm1 & _).
  destruct (plan_forward defaults w w1 p c) as (c1 & Hp1 & Hcert & Htargets);
    [by eapply rangeConfigurations_plan | done |].
  destruct (forConfiguration_store _ _ _ _ _ _ _ _ Hp1 Hm1 Hstep)
    as (store2 & Hm2 & _ & _ & Hnew).
  destruct (rangeConfigurations_store _ _ _ _ _ _ _ Hm2 Hrun)
    as (store' & Hm' & _ & Hkeep).
  exists store'. split; [done|]. rewrite Hkeep.
  - apply Hnew; [done | by rewrite Hcert | by rewrite Htargets | done].
  - intros q cq2 Hq Hcq2.
    destruct (plan_backward defaults w1 w2 q cq2)
      as (cq1 & Hcq1 & Hcert21 & Htargets21);
      [by eapply forConfiguration_plan | done |].
    destruct (plan_backward defaults w w1 q cq1)
      as (cq & Hcq & Hcert10 & Htargets10);
      [by eapply rangeConfigurations_plan | done |].
    rewrite (writes_plan _ _ _ _ _ Hcert21 Htargets21).
    rewrite (writes_plan _ _ _ _ _ Hcert10 Htargets10).
    by apply (Hno q).
Qed.

(** *** Claims about where a certificate ends up *)




End WithAppendCertificates.

(** ** The claims on concrete inputs *)

Example inlineBody_length : String.length Fixtures.inlineBody = 66.
Proof. reflexivity. Qed.

Example scenario_defaulted :
  let '(w, r) := Fixtures.run
      [Configuration.mk (Some []) Fixtures.certA] (Some 100)
      ["web"; "websecure"] in
  r = Ok
  ∧ callerStore (Some 100) w
    = Some {[ "web" := {[ "example.com" := "a.pem" ]};
              "websecure" := {[ "example.com" := "a.pem" ]} ]}
  ∧ confs w !! 0
    = Some (Configuration.mk (Some ["web"; "websecure"]) Fixtures.certA).
Proof. vm_compute. split_and!; reflexivity. Qed.





Lemma abort_on_first_failure_witness :
  ∃ w2 store',
    SortTLSPerEntryPoints IsPath (AppendCertificates Fixtures.parse)
      ([0] ++ 1 :: [2]) (Some 100) ["web"] (Fixtures.world Fixtures.failing)
    = (setMap 100 store' w2, Failed Fixtures.parseError)
    ∧ maps w2 !! 100 = Some store'
    ∧ store' = {[ "web" := {[ "example.com" := "a.pem" ]} ]}
    ∧ confs w2 !! 2 = Some (Configuration.mk None Fixtures.certB).
Proof.
  set (w1 := (SortTLSPerEntryPoints IsPath
                (AppendCertificates Fixtures.parse) [0] (Some 100) ["web"]
                (Fixtures.world Fixtures.failing)).1).
  exists w1, {[ "web" := {[ "example.com" := "a.pem" ]} ]}.
  split_and!; [|reflexivity..].
  apply (abort_on_first_failure IsPath (AppendCertificates Fixtures.parse)
           [0] 1 [2] 100 ["web"] (Fixtures.world Fixtures.failing) w1
           (Configuration.mk (Some ["websecure"; "web"]) Fixtures.broken)
           [] "websecure" ["web"] w1
           {[ "web" := {[ "example.com" := "a.pem" ]} ]});
    reflexivity.
Defined.




Example diagnostic_line :
  logs (forConfiguration IsPath (AppendCertificates Fixtures.parse) 0 100
          ["web"; "websecure"]
          (Fixtures.debugWorld [Configuration.mk None Fixtures.inline])).1
  = ["No entryPoint is defined to add the certificate "
     +:+ "MIIDJzCCAg+gAwIBAgIUe7Zk0000000000000000000000000w"
     +:+ ", it will be added to the default entryPoints: web, websecure"]
  ∧ certName IsPath (Configuration.mk None Fixtures.certA) = "a.pem"
  ∧ certName IsPath
      (Configuration.mk None
         (mkCertificate (certificateHeader +:+ "MIIB") "short.key"))
    = certificateHeader +:+ "MIIB".
Proof. vm_compute. split_and!; reflexivity. Qed.

(** C5: called with a [nil] map, the resolver fills a map object of its own
    (at the new address 101) and returns [nil]; the caller's reference is
    still [nil] and the map object the caller had is as it was.  Called
    with the caller's map object, the same assignments end up in it. *)
Theorem nil_store_is_lost :
  let withNil := Fixtures.run Fixtures.explicit None ["web"] in
  let withMap := Fixtures.run Fixtures.explicit (Some 100) ["web"] in
  withNil.2 = Ok
  ∧ callerStore None withNil.1 = None
  ∧ maps withNil.1
    = {[ 100 := ∅;
         101 := {[ "websecure" := {[ "example.com" := "a.pem" ]} ]} ]}
  ∧ withMap.2 = Ok
  ∧ callerStore (Some 100) withMap.1
    = Some {[ "websecure" := {[ "example.com" := "a.pem" ]} ]}.
Proof. vm_compute. split_and!; reflexivity. Qed.

(** * Further properties of the code

    ** The flag value: counting, composing and reading back *)

Section FlagValue.

Lemma String_append_assoc (a b c : string) :
  (a +:+ b) +:+ c = a +:+ b +:+ c.
Proof.
  induction a as [|x a IH]; [done|].
  change (String x ((a +:+ b) +:+ c) = String x (a +:+ b +:+ c)).
  by rewrite IH.
Qed.

Lemma Split_comma_app (a b : string) :
  strings.Split (a +:+ "," +:+ b) "," 
  = strings.Split a "," ++ strings.Split b ",".
Proof.
  induction a as [|c a IH].
  - change ("" +:+ "," +:+ b) with (String ","%char b).
    rewrite Split_comma_cons. by rewrite decide_True.
  - change (String c a +:+ "," +:+ b) with (String c (a +:+ "," +:+ b)).
    rewrite !Split_comma_cons, IH. case_decide; [done|].
    pose proof (Split_comma_nonempty a).
    by destruct (strings.Split a ",").
Qed.

Lemma Split_without_comma (s : string) :
  ","%char ∉ String.list_ascii_of_string s → strings.Split s "," = [s].
Proof.
  induction s as [|c s IH]; [done|]. simpl.
  intros [Hc Hs]%not_elem_of_cons. rewrite Split_comma_cons.
  rewrite decide_False by congruence. by rewrite IH.
Qed.

Lemma Split_comma_count (s : string) :
  length (strings.Split s ",") = S (commas s).
Proof.
  induction s as [|c s IH]; [done|]. rewrite Split_comma_cons. simpl.
  case_decide; simpl; [by rewrite IH|].
  pose proof (Split_comma_nonempty s).
  destruct (strings.Split s ","); [done|]. simpl in *. lia.
Qed.

Lemma Join_app (l l' : list string) (sep : string) :
  l ≠ [] → l' ≠ [] →
  strings.Join (l ++ l') sep
  = strings.Join l sep +:+ sep +:+ strings.Join l' sep.
Proof.
  intros Hl Hl'. induction l as [|x l IH]; [done|].
  destruct l' as [|y l']; [done|]. destruct l as [|x' l].
  - by rewrite <-Join_cons.
  - change ((x :: x' :: l) ++ y :: l') with (x :: x' :: (l ++ y :: l')).
    rewrite !Join_cons, String_append_assoc. f_equal.
    rewrite String_append_assoc. f_equal. by apply IH.
Qed.

Lemma Split_Join_comma (l : list string) :
  l ≠ [] →
  Forall (λ piece, ","%char ∉ String.list_ascii_of_string piece) l →
  strings.Split (strings.Join l ",") "," = l.
Proof.
  intros Hl Hpieces. induction Hpieces as [|x l Hx Hpieces IH]; [done|].
  destruct l as [|y l]; [by apply Split_without_comma|].
  rewrite Join_cons, Split_comma_app, IH by done.
  by rewrite Split_without_comma.
Qed.

(** [Set] adds one element more than its argument has commas. *)
Theorem Set_length (r : FilesOrContents) (value : string) :
  length (FilesOrContents_Set r value).1 = length r + S (commas value).
Proof.
  rewrite Set_eq. cbn [fst]. by rewrite length_app, Split_comma_count.
Qed.

(** [String] after [Set] on a list that is not empty: what [String] gave
    before, a comma, and the argument of [Set]. *)
Theorem String_after_Set (r : FilesOrContents) (value : string) :
  r ≠ [] →
  FilesOrContents_String (FilesOrContents_Set r value).1
  = FilesOrContents_String r +:+ "," +:+ value.
Proof.
  intros Hr. rewrite Set_eq. cbn [fst].
  unfold FilesOrContents_String, FileOrContent_String. rewrite !map_id.
  rewrite Join_app; [|done|apply Split_comma_nonempty].
  by rewrite Join_Split_comma.
Qed.

(** [Set] of what [String] gives, on an empty list, gives the list back
    exactly when the list is not empty and none of its elements holds a
    comma. *)
Theorem Set_of_String (r : FilesOrContents) :
  (FilesOrContents_Set [] (FilesOrContents_String r)).1 = r
  ↔ r ≠ []
    ∧ Forall (λ f, ","%char ∉ String.list_ascii_of_string
                                 (FileOrContent_String f)) r.
Proof.
  rewrite Set_eq. cbn [fst app].
  unfold FilesOrContents_String, FileOrContent_String. rewrite map_id.
  split.
  - intros Heq. split.
    + intros ->. by apply (Split_comma_nonempty "").
    + rewrite <-Heq. apply Split_comma_pieces.
  - intros [Hr Hpieces]. by apply Split_Join_comma.
Qed.

(** Two calls of [Set] amount to one call with the two arguments joined by
    a comma. *)
Theorem Set_joined (r : FilesOrContents) (value value' : string) :
  FilesOrContents_Set (FilesOrContents_Set r value).1 value'
  = FilesOrContents_Set r (value +:+ "," +:+ value').
Proof.
  rewrite (Set_eq r value). cbn [fst].
  by rewrite !Set_eq, Split_comma_app, <-app_assoc.
Qed.

End FlagValue.

Lemma String_after_Set_witness :
  FilesOrContents_String (FilesOrContents_Set ["ca.pem"] "a.pem,b.pem").1
  = FilesOrContents_String ["ca.pem"] +:+ "," +:+ "a.pem,b.pem".
Proof. apply (String_after_Set ["ca.pem"] "a.pem,b.pem"). done. Defined.

(** ** The name in the diagnostic: bounds *)

Section CertNameBounds.

Variable isPath : FileOrContent → bool.

Lemma prefix_split (a s : string) :
  String.prefix a s = true → ∃ b, s = a +:+ b.
Proof.
  revert s. induction a as [|x a IH]; intros s; [by exists s|].
  destruct s as [|y s]; [done|]. simpl.
  destruct (ascii_dec x y) as [<-|]; [|done].
  intros [b ->]%IH. by exists b.
Qed.

(** Line 92 slices [[:50]] only where more than 50 bytes follow the header:
    the slice expression is in range whenever the test of line 91 holds. *)
Theorem certName_slice_in_range (c : Configuration) :
  let CertFile := CertFile (Configuration.Certificate c) in
  negb (isPath CertFile)
  && strings.HasPrefix (FileOrContent_String CertFile) certificateHeader
  && (String.length certificateHeader + 50
        <? String.length (FileOrContent_String CertFile)) = true →
  50 < String.length
         (strings.TrimPrefix (FileOrContent_String CertFile)
                             certificateHeader)
  ∧ String.length (certName isPath c) = 50.
Proof.
  intros f Htest. unfold certName. fold f. rewrite Htest.
  apply andb_prop in Htest as [[_ Hprefix]%andb_prop Hlen].
  unfold FileOrContent_String, strings.HasPrefix in *.
  apply prefix_split in Hprefix as [body Hbody]. rewrite Hbody in *.
  rewrite TrimPrefix_append. rewrite length_append in Hlen.
  apply Nat.ltb_lt in Hlen.
  split; [lia|]. apply substring_length. lia.
Qed.

(** The name is never longer than the value of [CertFile], and for a value
    that is not a path and starts with the PEM header it has at most 78
    bytes: the 28 of the header and 50 more. *)
Theorem certName_bounded (c : Configuration) :
  let CertFile := CertFile (Configuration.Certificate c) in
  String.length (certName isPath c) ≤ String.length CertFile
  ∧ (isPath CertFile = false →
     strings.HasPrefix CertFile certificateHeader = true →
     String.length (certName isPath c) ≤ 78).
Proof.
  intros f.
  destruct (negb (isPath f)
            && strings.HasPrefix (FileOrContent_String f) certificateHeader
            && (String.length certificateHeader + 50
                  <? String.length (FileOrContent_String f))) eqn:Htest.
  - destruct (certName_slice_in_range c Htest) as [_ ->].
    apply andb_prop in Htest as [_ Hlen%Nat.ltb_lt].
    unfold FileOrContent_String in Hlen. fold f in Hlen.
    split; [|lia]. change (String.length certificateHeader) with 28 in Hlen.
    lia.
  - unfold certName. fold f. rewrite Htest.
    unfold FileOrContent_String in *. split; [done|].
    intros Hpath Hprefix. rewrite Hpath, Hprefix in Htest.
    apply Nat.ltb_ge in Htest.
    change (String.length certificateHeader) with 28 in Htest. lia.
Qed.

End CertNameBounds.

Lemma certName_slice_in_range_witness :
  50 < String.length
         (strings.TrimPrefix
            (FileOrContent_String (CertFile Fixtures.inline))
            certificateHeader)
  ∧ String.length
      (certName IsPath (Configuration.mk None Fixtures.inline)) = 50.
Proof.
  apply (certName_slice_in_range IsPath
           (Configuration.mk None Fixtures.inline)).
  reflexivity.
Defined.

(** ** The resolver as a whole, over any [IsPath] and [AppendCertificates] *)

Section ResolverWhole.

Context {TLSCert : Type}.
Variable isPath : FileOrContent → bool.
Variable appendCertificates :
  Certificate → gmap string (gmap string TLSCert) → string
  → gmap string (gmap string TLSCert) * option error.

Implicit Types (w : World TLSCert) (c : Configuration) (p m : loc).
Implicit Types (store : gmap string (gmap string TLSCert)).
Implicit Types (defaults eps : list string) (ps : list loc).

Local Abbreviation forConf := (forConfiguration isPath appendCertificates).
Local Abbreviation rangeConfs :=
  (rangeConfigurations isPath appendCertificates).
Local Abbreviation rangeEps := (rangeEntryPoints appendCertificates).

(** *** Logging *)

Lemma forConfiguration_logs p m defaults w w' r :
  forConf p m defaults w = (w', r) →
  logLevel w' = logLevel w
  ∧ ∃ lines, logs w' = logs w ++ lines
             ∧ (logLevel w < DebugLevel → lines = []).
Proof.
  destruct (confs w !! p) as [c|] eqn:Hp; cycle 1.
  { rewrite (forConfiguration_nil _ _ _ _ _ _ Hp). intros [= <- <-].
    split; [done|]. exists []. by rewrite app_nil_r. }
  rewrite (forConfiguration_eq _ _ _ _ _ _ _ Hp).
  intros (_ & -> & -> & _)%rangeEntryPoints_frame.
  unfold defaultEntryPointsOf. case_decide.
  - destruct (DebugLevel <=? logLevel w) eqn:Hlevel; cbn.
    + split; [done|]. eexists. split; [done|].
      apply Nat.leb_le in Hlevel. lia.
    + split; [done|]. exists []. by rewrite app_nil_r.
  - split; [done|]. exists []. by rewrite app_nil_r.
Qed.

Lemma rangeConfigurations_logs ps m defaults w w' r :
  rangeConfs ps m defaults w = (w', r) →
  logLevel w' = logLevel w
  ∧ ∃ lines, logs w' = logs w ++ lines
             ∧ (logLevel w < DebugLevel → lines = []).
Proof.
  revert w. induction ps as [|p ps IH]; intros w; cbn.
  { intros [= <- <-]. split; [done|]. exists []. by rewrite app_nil_r. }
  destruct (forConf p m defaults w) as [w1 r1] eqn:Hstep.
  apply forConfiguration_logs in Hstep as (Hlevel1 & lines1 & Hlogs1 & Hq1).
  destruct r1; [|intros [= <- <-]; eauto..].
  intros (Hlevel & lines & Hlogs & Hq)%IH.
  split; [congruence|]. exists (lines1 ++ lines).
  rewrite Hlogs, Hlogs1, <-app_assoc. split; [done|].
  intros Hlow. rewrite Hq1, Hq by lia. done.
Qed.

(** Below the debug level the resolver writes no line, whatever its input
    and whether or not a map is supplied. *)
Theorem quiet_below_debug ps epConfiguration defaults w w' r :
  logLevel w < DebugLevel →
  SortTLSPerEntryPoints isPath appendCertificates ps epConfiguration
                        defaults w = (w', r) →
  logs w' = logs w.
Proof.
  unfold SortTLSPerEntryPoints. intros Hlow Hrun.
  destruct epConfiguration as [m|];
    apply rangeConfigurations_logs in Hrun as (_ & lines & -> & Hq);
    cbn in *; rewrite Hq by done; by rewrite app_nil_r.
Qed.

(** *** The map objects *)

(** A call with the caller's map object [m] changes no other map object,
    leaves [m] allocated, leaves the level of the logger as it is and only
    adds lines to the log. *)
Theorem other_maps_untouched ps m defaults w w' r :
  SortTLSPerEntryPoints isPath appendCertificates ps (Some m) defaults w
  = (w', r) →
  (∀ l, l ≠ m → maps w' !! l = maps w !! l)
  ∧ (is_Some (maps w !! m) → is_Some (maps w' !! m))
  ∧ logLevel w' = logLevel w
  ∧ logs w `prefix_of` logs w'.
Proof.
  unfold SortTLSPerEntryPoints. intros Hrun. split_and!.
  - intros l Hl. by eapply rangeConfigurations_maps.
  - by eapply rangeConfigurations_allocated.
  - by apply rangeConfigurations_logs in Hrun as [-> _].
  - apply rangeConfigurations_logs in Hrun as (_ & lines & -> & _).
    by exists lines.
Qed.

(** *** Batches *)

(** Resolving a sequence that is made of two, into one map object, is
    resolving the first and then, if that returned [nil], the second; an
    error in the first is the result and the second is not looked at. *)
Theorem SortTLSPerEntryPoints_app ps ps' m defaults w :
  SortTLSPerEntryPoints isPath appendCertificates (ps ++ ps') (Some m)
                        defaults w
  = match SortTLSPerEntryPoints isPath appendCertificates ps (Some m)
                                defaults w with
    | (w1, Ok) =>
        SortTLSPerEntryPoints isPath appendCertificates ps' (Some m)
                              defaults w1
    | other => other
    end.
Proof. unfold SortTLSPerEntryPoints. apply rangeConfigurations_app. Qed.

(** *** No targets, no calls *)


(** *** The records *)

Lemma forConfiguration_records p m defaults w w' r q :
  forConf p m defaults w = (w', r) →
  confs w' !! q = confs w !! q
  ∨ ∃ c, confs w !! q = Some c
         ∧ confs w' !! q = Some (defaulted defaults c).
Proof.
  destruct (confs w !! p) as [c|] eqn:Hp.
  - intros ->%(forConfiguration_confs _ _ _ _ _ _ _ _ _ Hp).
    destruct (decide (q = p)) as [->|Hne].
    + right. exists c. by rewrite lookup_insert_eq.
    + left. by apply lookup_insert_ne.
  - rewrite (forConfiguration_nil _ _ _ _ _ _ Hp). intros [= <- <-].
    by left.
Qed.

Lemma rangeConfigurations_records ps m defaults w w' r q :
  rangeConfs ps m defaults w = (w', r) →
  confs w' !! q = confs w !! q
  ∨ ∃ c, confs w !! q = Some c
         ∧ confs w' !! q = Some (defaulted defaults c).
Proof.
  revert w. induction ps as [|p ps IH]; intros w; cbn.
  { intros [= <- <-]. by left. }
  destruct (forConf p m defaults w) as [w1 r1] eqn:Hstep.
  pose proof (forConfiguration_records _ _ _ _ _ _ q Hstep) as Hfirst.
  destruct r1; [|by intros [= <- <-]..].
  intros [Hrest|(c1 & Hc1 & Hrest)]%IH.
  - by rewrite Hrest.
  - destruct Hfirst as [Hfirst|(c & Hc & Hfirst)].
    + right. exists c1. by rewrite <-Hfirst.
    + right. exists c. split; [done|]. rewrite Hrest.
      rewrite Hfirst in Hc1. injection Hc1 as <-.
      by rewrite defaulted_idemp.
Qed.

(** A second resolution of the same assignments, after one that returned
    [nil], changes no record: the defaulting has been done once and for
    all. *)
Theorem rerun_keeps_records ps epConfiguration epConfiguration' defaults
    w w' w'' r :
  SortTLSPerEntryPoints isPath appendCertificates ps epConfiguration
                        defaults w = (w', Ok) →
  SortTLSPerEntryPoints isPath appendCertificates ps epConfiguration'
                        defaults w' = (w'', r) →
  confs w'' = confs w'.
Proof.
  unfold SortTLSPerEntryPoints. intros Hfirst Hsecond.
  set (mw := match epConfiguration with
             | Some m => (m, w) | None => makeMap w end) in *.
  set (mw' := match epConfiguration' with
              | Some m => (m, w') | None => makeMap w' end) in *.
  assert (confs mw.2 = confs w) as Hmw
    by (subst mw; by destruct epConfiguration).
  assert (confs mw'.2 = confs w') as Hmw'
    by (subst mw'; by destruct epConfiguration').
  destruct mw as [m w0], mw' as [m' w0']. cbn [snd] in *.
  apply map_eq. intros q.
  destruct (rangeConfigurations_confs _ _ _ _ _ _ _ _ Hfirst)
    as (reached & rest & Hsplit & Hrest & Hin & _).
  rewrite (Hrest eq_refl), app_nil_r in Hsplit. subst reached.
  destruct (rangeConfigurations_confs _ _ _ _ _ _ _ _ Hsecond)
    as (reached' & rest' & Hsplit' & _ & Hin' & Hout').
  rewrite Hmw in *. rewrite Hmw' in *.
  destruct (decide (q ∈ reached')) as [Hq|Hq]; [|by apply Hout'].
  destruct (confs w' !! q) as [c'|] eqn:Hc'; cycle 1.
  { destruct (rangeConfigurations_records _ _ _ _ _ _ q Hsecond)
      as [Heq|(c & Hc & _)]; rewrite Hmw' in *; congruence. }
  rewrite (Hin' q c' Hq Hc'). f_equal.
  assert (q ∈ ps) as Hqps by (rewrite Hsplit'; apply elem_of_app; by left).
  destruct (rangeConfigurations_records _ _ _ _ _ _ q Hfirst)
    as [Heq|(c & Hc & Hdef)]; rewrite Hmw in *.
  - rewrite Hc' in Heq. symmetry in Heq.
    pose proof (Hin q c' Hqps Heq) as Hdef. congruence.
  - rewrite Hc' in Hdef. injection Hdef as ->. apply defaulted_idemp.
Qed.

(** *** Errors *)

Lemma rangeEntryPoints_failed cert m eps w w' err :
  rangeEps cert m eps w = (w', Failed err) →
  ∃ ep store store',
    ep ∈ eps ∧ appendCertificates cert store ep = (store', Some err).
Proof.
  revert w. induction eps as [|ep eps IH]; intros w; cbn; [done|].
  destruct (maps w !! m) as [store|]; [|done].
  destruct (appendCertificates cert store ep) as [store' [err'|]] eqn:Hcall.
  - intros [= <- <-]. exists ep, store, store'. split; [by left | done].
  - intros (ep' & s & s' & Hep & Hcall')%IH.
    exists ep', s, s'. split; [by right | done].
Qed.

(** An error that the resolver returns is one that [AppendCertificates]
    returned, for the certificate of an assignment of the input and one of
    its targets: the resolver makes up no error of its own. *)
Theorem error_comes_from_a_call ps epConfiguration defaults w w' err :
  SortTLSPerEntryPoints isPath appendCertificates ps epConfiguration
                        defaults w = (w', Failed err) →
  ∃ p c ep store store',
    p ∈ ps ∧ confs w !! p = Some c ∧ ep ∈ targets defaults c
    ∧ appendCertificates (Configuration.Certificate c) store ep
      = (store', Some err).
Proof.
  unfold SortTLSPerEntryPoints.
  set (mw := match epConfiguration with
             | Some m => (m, w) | None => makeMap w end).
  assert (confs mw.2 = confs w) as <-
    by (subst mw; by destruct epConfiguration).
  destruct mw as [m w0]. cbn [snd]. clear w. revert w0.
  induction ps as [|p ps IH]; intros w; cbn; [done|].
  destruct (forConf p m defaults w) as [w1 r1] eqn:Hstep.
  destruct (confs w !! p) as [c|] eqn:Hp; cycle 1.
  { rewrite (forConfiguration_nil _ _ _ _ _ _ Hp) in Hstep.
    injection Hstep as <- <-. done. }
  destruct r1; [|intros [= <- <-]|done].
  - intros (q & c1 & ep & s & s' & Hq & Hc1 & Hep & Hcall)%IH.
    destruct (plan_backward defaults w w1 q c1) as (c0 & Hc0 & Hcert & Htg);
      [by eapply forConfiguration_records | done |].
    exists q, c0, ep, s, s'. rewrite <-Htg, <-Hcert.
    split_and!; [by right | done..].
  - rewrite (forConfiguration_eq _ _ _ _ _ _ _ Hp) in Hstep.
    apply rangeEntryPoints_failed in Hstep as (ep & s & s' & Hep & Hcall).
    exists p, c, ep, s, s'. split_and!; [by left | done..].
Qed.

(** *** The calls the resolver makes *)

Lemma appendCalls_app (xs ys : list (Certificate * string)) store :
  appendCalls appendCertificates (xs ++ ys) store
  = match appendCalls appendCertificates xs store with
    | (store1, None) => appendCalls appendCertificates ys store1
    | other => other
    end.
Proof.
  revert store. induction xs as [|[cert ep] xs IH]; intros store; cbn;
    [done|].
  destruct (appendCertificates cert store ep) as [store1 [err|]]; [done|].
  apply IH.
Qed.

Lemma rangeEntryPoints_calls cert m eps w w' r store :
  maps w !! m = Some store →
  rangeEps cert m eps w = (w', r) →
  maps w' !! m
  = Some (appendCalls appendCertificates ((λ ep, (cert, ep)) <$> eps)
                      store).1
  ∧ r = returned (appendCalls appendCertificates
                    ((λ ep, (cert, ep)) <$> eps) store).2.
Proof.
  revert w store. induction eps as [|ep eps IH]; intros w store Hm; cbn.
  { by intros [= <- <-]. }
  rewrite Hm. destruct (appendCertificates cert store ep)
    as [store1 [err|]] eqn:Hcall.
  - intros [= <- <-]. cbn. by rewrite lookup_insert_eq.
  - apply IH. cbn. by rewrite lookup_insert_eq.
Qed.

Lemma rangeConfigurations_calls ps cs m defaults w w' r store :
  Forall2 (λ p c, ∃ c0, confs w !! p = Some c0
                        ∧ Configuration.Certificate c0
                          = Configuration.Certificate c
                        ∧ targets defaults c0 = targets defaults c) ps cs →
  maps w !! m = Some store →
  rangeConfs ps m defaults w = (w', r) →
  maps w' !! m
  = Some (appendCalls appendCertificates (calls defaults cs) store).1
  ∧ r = returned (appendCalls appendCertificates (calls defaults cs)
                              store).2.
Proof.
  revert cs w store. induction ps as [|p ps IH]; intros cs w store Hcs Hm.
  { apply Forall2_nil_inv_l in Hcs as ->. cbn. by intros [= <- <-]. }
  apply Forall2_cons_inv_l in Hcs
    as (c & cs' & (c0 & Hp & Hcert & Htargets) & Hcs & ->).
  change (calls defaults (c :: cs'))
    with (((λ ep, (Configuration.Certificate c, ep)) <$> targets defaults c)
          ++ calls defaults cs').
  rewrite appendCalls_app. cbn [rangeConfigurations].
  destruct (forConf p m defaults w) as [w1 r1] eqn:Hstep.
  pose proof Hstep as Hstep'.
  rewrite (forConfiguration_eq _ _ _ _ _ _ _ Hp), Hcert, Htargets in Hstep'.
  apply (rangeEntryPoints_calls _ _ _ _ _ _ store) in Hstep' as [Hm1 ->];
    [|by rewrite defaultEntryPointsOf_maps].
  destruct (appendCalls appendCertificates _ store) as [store1 [err|]];
    cbn [fst snd returned] in *.
  { by intros [= <- <-]. }
  apply IH; [|done].
  eapply Forall2_impl; [exact Hcs|].
  intros q cq (cq0 & Hq0 & Hc & Ht).
  destruct (plan_forward defaults w w1 q cq0) as (cq1 & Hcq1 & Hc1 & Ht1);
    [by eapply forConfiguration_records | done |].
  exists cq1. split_and!; congruence.
Qed.

(** The resolver amounts to the calls of [AppendCertificates] for each
    certificate and each of its targets, in input order, made on the
    caller's map object up to the first that returns an error; that error,
    or [nil], is what it returns. *)
Theorem resolver_is_fold_of_calls ps cs m defaults w w' r store :
  Forall2 (λ p c, confs w !! p = Some c) ps cs →
  maps w !! m = Some store →
  SortTLSPerEntryPoints isPath appendCertificates ps (Some m) defaults w
  = (w', r) →
  callerStore (Some m) w'
  = Some (appendCalls appendCertificates (calls defaults cs) store).1
  ∧ r = returned (appendCalls appendCertificates (calls defaults cs)
                              store).2.
Proof.
  unfold SortTLSPerEntryPoints. intros Hcs.
  apply rangeConfigurations_calls.
  eapply Forall2_impl; [exact Hcs|]. intros p c Hp. by exists c.
Qed.

End ResolverWhole.

(** ** Logging does not change the outcome *)

Section LoggingIndependence.

Context {TLSCert : Type}.
Variables isPath isPath' : FileOrContent → bool.
Variable appendCertificates :
  Certificate → gmap string (gmap string TLSCert) → string
  → gmap string (gmap string TLSCert) * option error.

Implicit Types (w v : World TLSCert).

Lemma rangeEntryPoints_agree cert m eps w v :
  confs w = confs v → maps w = maps v →
  (rangeEntryPoints appendCertificates cert m eps w).2
  = (rangeEntryPoints appendCertificates cert m eps v).2
  ∧ confs (rangeEntryPoints appendCertificates cert m eps w).1
    = confs (rangeEntryPoints appendCertificates cert m eps v).1
  ∧ maps (rangeEntryPoints appendCertificates cert m eps w).1
    = maps (rangeEntryPoints appendCertificates cert m eps v).1.
Proof.
  revert w v. induction eps as [|ep eps IH]; intros w v Hconfs Hmaps; cbn.
  { done. }
  rewrite Hmaps. destruct (maps v !! m) as [store|]; [|done].
  destruct (appendCertificates cert store ep) as [store' [err|]]; cbn.
  - by rewrite Hmaps.
  - apply IH; cbn; [done | by rewrite Hmaps].
Qed.

Lemma forConfiguration_agree p m defaults w v :
  confs w = confs v → maps w = maps v →
  (forConfiguration isPath appendCertificates p m defaults w).2
  = (forConfiguration isPath' appendCertificates p m defaults v).2
  ∧ confs (forConfiguration isPath appendCertificates p m defaults w).1
    = confs (forConfiguration isPath' appendCertificates p m defaults v).1
  ∧ maps (forConfiguration isPath appendCertificates p m defaults w).1
    = maps (forConfiguration isPath' appendCertificates p m defaults v).1.
Proof.
  intros Hconfs Hmaps.
  destruct (confs w !! p) as [c|] eqn:Hp.
  - rewrite (forConfiguration_eq isPath _ _ _ _ _ _ Hp).
    rewrite Hconfs in Hp.
    rewrite (forConfiguration_eq isPath' _ _ _ _ _ _ Hp).
    apply rangeEntryPoints_agree.
    + by rewrite !defaultEntryPointsOf_confs, Hconfs.
    + by rewrite !defaultEntryPointsOf_maps.
  - rewrite (forConfiguration_nil isPath _ _ _ _ _ Hp).
    rewrite Hconfs in Hp.
    by rewrite (forConfiguration_nil isPath' _ _ _ _ _ Hp).
Qed.

Lemma rangeConfigurations_agree ps m defaults w v :
  confs w = confs v → maps w = maps v →
  (rangeConfigurations isPath appendCertificates ps m defaults w).2
  = (rangeConfigurations isPath' appendCertificates ps m defaults v).2
  ∧ confs (rangeConfigurations isPath appendCertificates ps m defaults w).1
    = confs (rangeConfigurations isPath' appendCertificates ps m defaults
                                 v).1
  ∧ maps (rangeConfigurations isPath appendCertificates ps m defaults w).1
    = maps (rangeConfigurations isPath' appendCertificates ps m defaults
                                v).1.
Proof.
  revert w v. induction ps as [|p ps IH]; intros w v Hconfs Hmaps; cbn.
  { done. }
  destruct (forConfiguration_agree p m defaults w v Hconfs Hmaps)
    as (Hr & Hc & Hm).
  destruct (forConfiguration isPath _ p m defaults w) as [w1 r1].
  destruct (forConfiguration isPath' _ p m defaults v) as [v1 r1'].
  cbn [fst snd] in *. subst r1'. destruct r1; [by apply IH | done..].
Qed.


End LoggingIndependence.

(** ** The further properties on concrete inputs *)

Lemma quiet_below_debug_witness :
  logs (Fixtures.run Fixtures.colliding None ["web"]).1
  = logs (Fixtures.world Fixtures.colliding).
Proof.
  apply (quiet_below_debug IsPath (AppendCertificates Fixtures.parse)
           [0; 1; 2] None ["web"] (Fixtures.world Fixtures.colliding)
           (Fixtures.run Fixtures.colliding None ["web"]).1
           (Fixtures.run Fixtures.colliding None ["web"]).2);
    [vm_compute; lia | reflexivity].
Defined.

Lemma other_maps_untouched_witness :
  let w := Fixtures.debugWorld Fixtures.colliding in
  let run :=
    SortTLSPerEntryPoints IsPath (AppendCertificates Fixtures.parse)
      [0; 1; 2] (Some 100) ["web"] w in
  (∀ l, l ≠ 100 → maps run.1 !! l = maps w !! l)
  ∧ (is_Some (maps w !! 100) → is_Some (maps run.1 !! 100))
  ∧ logLevel run.1 = logLevel w
  ∧ logs w `prefix_of` logs run.1.
Proof.
  intros w run.
  apply (other_maps_untouched IsPath (AppendCertificates Fixtures.parse)
           [0; 1; 2] 100 ["web"] w run.1 run.2).
  reflexivity.
Defined.


Lemma rerun_keeps_records_witness :
  let first := Fixtures.run Fixtures.colliding (Some 100) ["web"] in
  let second :=
    SortTLSPerEntryPoints IsPath (AppendCertificates Fixtures.parse)
      [0; 1; 2] None ["web"] first.1 in
  confs second.1 = confs first.1.
Proof.
  intros first second.
  apply (rerun_keeps_records IsPath (AppendCertificates Fixtures.parse)
           [0; 1; 2] (Some 100) None ["web"]
           (Fixtures.world Fixtures.colliding) first.1 second.1 second.2);
    reflexivity.
Defined.

Lemma error_comes_from_a_call_witness :
  ∃ p c ep store store',
    p ∈ [0; 1; 2]
    ∧ confs (Fixtures.world Fixtures.failing) !! p = Some c
    ∧ ep ∈ targets ["web"] c
    ∧ AppendCertificates Fixtures.parse (Configuration.Certificate c)
                         store ep
      = (store', Some Fixtures.parseError).
Proof.
  apply (error_comes_from_a_call IsPath (AppendCertificates Fixtures.parse)
           [0; 1; 2] (Some 100) ["web"] (Fixtures.world Fixtures.failing)
           (Fixtures.run Fixtures.failing (Some 100) ["web"]).1).
  reflexivity.
Defined.

Lemma resolver_is_fold_of_calls_witness :
  let run := Fixtures.run Fixtures.colliding (Some 100) ["web"; "websecure"] in
  let folded :=
    appendCalls (AppendCertificates Fixtures.parse)
      [(Fixtures.certB, "web"); (Fixtures.certA, "web");
       (Fixtures.certA, "websecure"); (Fixtures.certC, "web")] ∅ in
  callerStore (Some 100) run.1 = Some folded.1
  ∧ run.2 = returned folded.2.
Proof.
  intros run folded.
  apply (resolver_is_fold_of_calls IsPath
           (AppendCertificates Fixtures.parse) [0; 1; 2] Fixtures.colliding
           100 ["web"; "websecure"] (Fixtures.world Fixtures.colliding)
           run.1 run.2 ∅); [|reflexivity..].
  repeat constructor.
Defined.

